(** * Elo ranking system: Player, Match and RankingSystem

    A shallow embedding of [src/unnamed/part_000] (Player.cpp),
    [src/src/Match.cpp] and [src/src/RankingSystem.cpp].

    Modelling choices:
    - a C++ [double] is a real number [R] (exact arithmetic, no rounding);
      [pow(10.0, e)] is [Rpower 10 e];
    - a C++ [int] counter is a [Z] (the counters only ever grow by one from 0);
    - the [players] vector of the RankingSystem is a [list Player] in
      insertion order; a [Player&] / [Player*] into it is an index, so that
      two references to the same player (aliasing) mutate the same cell. *)

From Stdlib Require Import Reals Psatz ZArith List String Ascii Bool.
Import ListNotations.
Open Scope R_scope.

(** ** Player (Player.h / Player.cpp) *)

Record Player := mkPlayer {
  name : string;
  rating : R;
  gamesPlayed : Z;
  wins : Z;
  losses : Z;
  draws : Z
}.

(** [Player::Player(std::string name, double rating)]: the fields are
    initialised, then a negative rating is set to [0.0]. *)
Definition Player_new (n : string) (r : R) : Player :=
  let r0 := if Rlt_dec r 0 then 0 else r in
  mkPlayer n r0 0 0 0 0.

(** [Player::updateRating]: [rating = newRating]. *)
Definition updateRating (newRating : R) (p : Player) : Player :=
  mkPlayer (name p) newRating (gamesPlayed p) (wins p) (losses p) (draws p).

(** [Player::recordWin]: [wins++; gamesPlayed++]. *)
Definition recordWin (p : Player) : Player :=
  mkPlayer (name p) (rating p) (gamesPlayed p + 1)%Z (wins p + 1)%Z
           (losses p) (draws p).

(** [Player::recordLoss]: [losses++; gamesPlayed++]. *)
Definition recordLoss (p : Player) : Player :=
  mkPlayer (name p) (rating p) (gamesPlayed p + 1)%Z (wins p)
           (losses p + 1)%Z (draws p).

(** [Player::recordDraw]: [draws++; gamesPlayed++]. *)
Definition recordDraw (p : Player) : Player :=
  mkPlayer (name p) (rating p) (gamesPlayed p + 1)%Z (wins p) (losses p)
           (draws p + 1)%Z.

(** The mutating member functions of Player, as a sequence of calls. *)
Inductive PlayerOp :=
| OpRecordWin
| OpRecordLoss
| OpRecordDraw
| OpUpdateRating (v : R).

Definition apply_op (p : Player) (o : PlayerOp) : Player :=
  match o with
  | OpRecordWin => recordWin p
  | OpRecordLoss => recordLoss p
  | OpRecordDraw => recordDraw p
  | OpUpdateRating v => updateRating v p
  end.

Definition run_ops (ops : list PlayerOp) (p : Player) : Player :=
  fold_left apply_op ops p.

(** The statistics invariant of Player.h. *)
Definition stats_consistent (p : Player) : Prop :=
  gamesPlayed p = (wins p + losses p + draws p)%Z.

(** ** The store of players that references point into *)

Definition Store := list Player.

(** Never read: every reference the code forms points at an existing player. *)
Definition dflt_player : Player := mkPlayer EmptyString 0 0 0 0 0.

(** Dereferencing the reference number [i]. *)
Definition player_at (s : Store) (i : nat) : Player := nth i s dflt_player.

(** Calling a mutating member function through the reference number [i]. *)
Fixpoint modify (f : Player -> Player) (i : nat) (s : Store) : Store :=
  match s, i with
  | [], _ => []
  | p :: s', O => f p :: s'
  | p :: s', S i' => p :: modify f i' s'
  end.

(** ** Match (Match.h / Match.cpp) *)

(** [Match::calculateExpectedScore]. *)
Definition calculateExpectedScore (ratingA ratingB : R) : R :=
  let exponent := (ratingB - ratingA) / 400 in
  let powerOfTen := Rpower 10 exponent in
  1 / (1 + powerOfTen).

(** A Match: two references into the store, the result code and the
    K-factor. *)
Record Match := mkMatch {
  player1 : nat;
  player2 : nat;
  result : Z;
  kFactor : R
}.

(** The default K-factor of the Match constructor. *)
Definition default_kFactor : R := 32.

(** [Match::processMatch]: both ratings are read first, then the statistics
    are recorded through both references (step 3), then both ratings are
    written through both references (step 5), in the order of the code. *)
Definition processMatch (m : Match) (s : Store) : Store :=
  let i := player1 m in
  let j := player2 m in
  let rating1 := rating (player_at s i) in
  let rating2 := rating (player_at s j) in
  let expected1 := calculateExpectedScore rating1 rating2 in
  let expected2 := calculateExpectedScore rating2 rating1 in
  let '(actual1, actual2, s3) :=
    if Z.eqb (result m) 1 then
      (1, 0, modify recordLoss j (modify recordWin i s))
    else if Z.eqb (result m) (-1) then
      (0, 1, modify recordWin j (modify recordLoss i s))
    else
      (0.5, 0.5, modify recordDraw j (modify recordDraw i s)) in
  let newRating1 := rating1 + kFactor m * (actual1 - expected1) in
  let newRating2 := rating2 + kFactor m * (actual2 - expected2) in
  modify (updateRating newRating2) j (modify (updateRating newRating1) i s3).

(** ** RankingSystem (RankingSystem.h / RankingSystem.cpp) *)

(** The [players] vector; a RankingSystem is its store. *)
Definition RankingSystem := Store.

(** [RankingSystem::findPlayer]: linear scan for the first player whose name
    is [n]; the result is the reference found, or [None] for [nullptr]. *)
Fixpoint findPlayer_from (k : nat) (n : string) (s : RankingSystem)
  : option nat :=
  match s with
  | [] => None
  | p :: s' => if String.eqb (name p) n then Some k
               else findPlayer_from (S k) n s'
  end.

Definition findPlayer (n : string) (s : RankingSystem) : option nat :=
  findPlayer_from O n s.

(** [RankingSystem::addPlayer]: nothing happens for an existing name,
    otherwise a new Player is pushed at the back. *)
Definition addPlayer (n : string) (initialRating : R) (s : RankingSystem)
  : RankingSystem :=
  match findPlayer n s with
  | Some _ => s
  | None => s ++ [Player_new n initialRating]
  end.

(** [RankingSystem::recordMatch]: both names are looked up; if either is
    missing the function returns; otherwise a Match over the two players found
    (default K-factor) is built and processed. *)
Definition recordMatch (name1 name2 : string) (res : Z) (s : RankingSystem)
  : RankingSystem :=
  let p1 := findPlayer name1 s in
  let p2 := findPlayer name2 s in
  match p1 with
  | None => s
  | Some i =>
      match p2 with
      | None => s
      | Some j => processMatch (mkMatch i j res default_kFactor) s
      end
  end.

(** [RankingSystem::getPlayerCount]. *)
Definition getPlayerCount (s : RankingSystem) : nat := List.length s.

(** *** Persistence

    [saveToFile] writes one line [name,rating,games,wins,losses,draws] per
    player through a [std::ofstream] with its default formatting, and
    [loadFromFile] reads each line back with [getline(ss, name, ',')] and
    [ss >> value; ss.ignore()].  The file is modelled at the level of these
    fields: a line holds the name text, the value denoted by the text that
    [<<] wrote for the rating, and the four integers.  This view of a line
    is faithful for names without [','] and without a newline. *)

(** [floor] on the reals. *)
Definition floorZ (x : R) : Z := Int_part x.

(** Rounding to the nearest integer, ties to even (the rounding of printf). *)
Definition round_half_even (x : R) : Z :=
  let n := floorZ x in
  let f := x - IZR n in
  if Rlt_dec f (1 / 2) then n
  else if Rlt_dec (1 / 2) f then (n + 1)%Z
  else if Z.even n then n else (n + 1)%Z.

(** The decimal exponent of a non-zero real: [floor (log10 |r|)]. *)
Definition decimal_exponent (r : R) : Z := floorZ (ln (Rabs r) / ln 10).

(** The value of the text written by [file << d] with the stream's default
    format ([%g], precision 6): [d] rounded to 6 significant digits. *)
Definition fmt6 (r : R) : R :=
  if Req_dec_T r 0 then 0
  else let q := powerRZ 10 (decimal_exponent r - 5) in
       IZR (round_half_even (r / q)) * q.

Record CsvLine := mkCsvLine {
  csv_name : string;
  csv_rating : R;
  csv_games : Z;
  csv_wins : Z;
  csv_losses : Z;
  csv_draws : Z
}.

(** The file contents: one [CsvLine] per line. *)
Definition CsvFile := list CsvLine.

(** One iteration of the body of [saveToFile]'s loop. *)
Definition save_line (p : Player) : CsvLine :=
  mkCsvLine (name p) (fmt6 (rating p)) (gamesPlayed p) (wins p) (losses p)
            (draws p).

(** [RankingSystem::saveToFile] (the file opens). *)
Definition saveToFile (s : RankingSystem) : CsvFile := map save_line s.

(** [for (int i = 0; i < n; i++) f(player)]. *)
Definition repeat_call (n : Z) (f : Player -> Player) (p : Player) : Player :=
  Nat.iter (Z.to_nat n) f p.

(** Steps 6 and 7 of [loadFromFile] for one line: a Player is constructed
    from the name and rating, then the wins, losses and draws are replayed;
    the games count of the line is read but not used. *)
Definition load_line (l : CsvLine) : Player :=
  let player := Player_new (csv_name l) (csv_rating l) in
  let player := repeat_call (csv_wins l) recordWin player in
  let player := repeat_call (csv_losses l) recordLoss player in
  repeat_call (csv_draws l) recordDraw player.

(** [RankingSystem::loadFromFile]: [None] is a file that cannot be opened,
    in which case the function returns before [players.clear()]. *)
Definition loadFromFile (file : option CsvFile) (s : RankingSystem)
  : RankingSystem :=
  match file with
  | None => s
  | Some lines => map load_line lines
  end.

(** [RankingSystem::getAllPlayerNames]: the names in insertion order. *)
Definition getAllPlayerNames (s : RankingSystem) : list string := map name s.

(** ** The menu (main program in Match.h) *)

(** [getOtherPlayers]: every name of [getAllPlayerNames] that differs from
    [playerName], in order. *)
Definition getOtherPlayers (s : RankingSystem) (playerName : string)
  : list string :=
  filter (fun n => negb (String.eqb n playerName)) (getAllPlayerNames s).

(** [findRandomOpponent]: [""] for an empty list, otherwise the element at
    [rand() % opponents.size()]; [rnd] is the (non-negative) value that
    [rand()] returned. *)
Definition findRandomOpponent (opponents : list string) (rnd : nat) : string :=
  match opponents with
  | [] => EmptyString
  | _ => nth (rnd mod List.length opponents) opponents EmptyString
  end.

(** Case 2 of the main loop ("Find Match"), given the name typed, the value
    of [rand()] and the result typed: unknown player, no opponent or an
    invalid result leave the system as it is; otherwise the match against
    the random opponent is recorded. *)
Definition findMatchMenu (playerName : string) (rnd : nat) (res : Z)
  (s : RankingSystem) : RankingSystem :=
  match findPlayer playerName s with
  | None => s
  | Some _ =>
      let availableOpponents := getOtherPlayers s playerName in
      match availableOpponents with
      | [] => s
      | _ =>
          let opponent := findRandomOpponent availableOpponents rnd in
          if negb (Z.eqb res 1) && negb (Z.eqb res 0) && negb (Z.eqb res (-1))
          then s
          else recordMatch playerName opponent res s
      end
  end.

(** The operations of the program that change the RankingSystem:
    [addPlayer], [recordMatch], [loadFromFile] (also at start-up) and case 2
    of the menu.  Saving and showing the leaderboard leave it unchanged. *)
Inductive SysOp :=
| SAddPlayer (n : string) (r : R)
| SRecordMatch (name1 name2 : string) (res : Z)
| SLoadFromFile (file : option CsvFile)
| SFindMatch (playerName : string) (rnd : nat) (res : Z).

Definition apply_sys_op (s : RankingSystem) (o : SysOp) : RankingSystem :=
  match o with
  | SAddPlayer n r => addPlayer n r s
  | SRecordMatch n1 n2 res => recordMatch n1 n2 res s
  | SLoadFromFile f => loadFromFile f s
  | SFindMatch n rnd res => findMatchMenu n rnd res s
  end.

Definition run_sys (ops : list SysOp) (s : RankingSystem) : RankingSystem :=
  fold_left apply_sys_op ops s.

(** The operations other than loading a file. *)
Definition is_load (o : SysOp) : bool :=
  match o with
  | SLoadFromFile _ => true
  | _ => false
  end.

(** The sum of all ratings and of all games played. *)
Definition total_rating (s : RankingSystem) : R :=
  fold_right (fun p acc => rating p + acc) 0 s.

Definition total_games (s : RankingSystem) : Z :=
  fold_right (fun p acc => (gamesPlayed p + acc)%Z) 0%Z s.


(** ** Facts about the store *)

Lemma modify_length (f : Player -> Player) (i : nat) (s : Store) :
  List.length (modify f i s) = List.length s.
Proof.
  revert i; induction s as [|p s IH]; intros [|i]; simpl; auto.
Qed.

Lemma player_at_modify_same (f : Player -> Player) (i : nat) (s : Store) :
  (i < List.length s)%nat -> player_at (modify f i s) i = f (player_at s i).
Proof.
  unfold player_at; revert i; induction s as [|p s IH]; intros [|i] Hi;
    simpl in *; try lia; auto.
  apply IH; lia.
Qed.

Lemma player_at_modify_other (f : Player -> Player) (i k : nat) (s : Store) :
  i <> k -> player_at (modify f i s) k = player_at s k.
Proof.
  unfold player_at; revert i k; induction s as [|p s IH];
    intros [|i] [|k] Hik; simpl; auto; try congruence.
Qed.

Lemma modify_modify_same (f g : Player -> Player) (i : nat) (s : Store) :
  modify f i (modify g i s) = modify (fun p => f (g p)) i s.
Proof.
  revert i; induction s as [|p s IH]; intros [|i]; simpl; auto.
  now rewrite IH.
Qed.

Lemma modify_ext_at (f g : Player -> Player) (i : nat) (s : Store) :
  f (player_at s i) = g (player_at s i) -> modify f i s = modify g i s.
Proof.
  unfold player_at; revert i; induction s as [|p s IH]; intros [|i] H;
    simpl in *; auto.
  - now rewrite H.
  - now rewrite (IH i H).
Qed.

Lemma findPlayer_from_spec (n : string) (s : RankingSystem) (k i : nat) :
  findPlayer_from k n s = Some i ->
  (k <= i)%nat /\ (i - k < List.length s)%nat /\
  name (player_at s (i - k)) = n.
Proof.
  unfold player_at; revert k; induction s as [|p s IH]; intros k H;
    simpl in H; [discriminate|].
  destruct (String.eqb (name p) n) eqn:E.
  - injection H as <-. rewrite Nat.sub_diag; simpl.
    apply String.eqb_eq in E. repeat split; auto; lia.
  - destruct (IH (S k) H) as (H1 & H2 & H3).
    replace (i - k)%nat with (S (i - S k)) by lia. simpl.
    repeat split; auto; lia.
Qed.

Lemma findPlayer_spec (n : string) (s : RankingSystem) (i : nat) :
  findPlayer n s = Some i ->
  (i < List.length s)%nat /\ name (player_at s i) = n.
Proof.
  intros H. destruct (findPlayer_from_spec n s 0 i H) as (_ & H2 & H3).
  rewrite Nat.sub_0_r in *. auto.
Qed.

(** ** Facts about the expected score *)

Lemma Rpower10_pos (x : R) : 0 < Rpower 10 x.
Proof. unfold Rpower. apply exp_pos. Qed.

Lemma expected_score_sum (a b : R) :
  calculateExpectedScore a b + calculateExpectedScore b a = 1.
Proof.
  unfold calculateExpectedScore.
  replace ((a - b) / 400) with (- ((b - a) / 400)) by field.
  rewrite Rpower_Ropp.
  pose proof (Rpower10_pos ((b - a) / 400)) as Hp.
  set (t := Rpower 10 ((b - a) / 400)) in *.
  replace (1 + / t) with ((t + 1) / t) by (field; lra).
  field; lra.
Qed.

Lemma expected_score_same (x : R) : calculateExpectedScore x x = 1 / 2.
Proof.
  unfold calculateExpectedScore.
  replace ((x - x) / 400) with 0 by field.
  rewrite Rpower_O by lra. field.
Qed.

(** Reading back through references after calls through references. *)
Ltac store_simpl :=
  repeat first
    [ rewrite player_at_modify_same by (rewrite ?modify_length; lia)
    | rewrite player_at_modify_other by lia ].

(** The three branches of [processMatch] on two distinct players. *)
Lemma processMatch_distinct (m : Match) (s : Store) :
  player1 m <> player2 m ->
  (player1 m < List.length s)%nat -> (player2 m < List.length s)%nat ->
  let i := player1 m in
  let j := player2 m in
  let p1 := player_at s i in
  let p2 := player_at s j in
  let e1 := calculateExpectedScore (rating p1) (rating p2) in
  let e2 := calculateExpectedScore (rating p2) (rating p1) in
  exists (a1 a2 : R) (rec1 rec2 : Player -> Player),
    a1 + a2 = 1 /\
    ((result m = 1%Z /\ a1 = 1 /\ a2 = 0 /\ rec1 = recordWin /\
      rec2 = recordLoss) \/
     (result m = (-1)%Z /\ a1 = 0 /\ a2 = 1 /\ rec1 = recordLoss /\
      rec2 = recordWin) \/
     (result m <> 1%Z /\ result m <> (-1)%Z /\ a1 = 0.5 /\ a2 = 0.5 /\
      rec1 = recordDraw /\ rec2 = recordDraw)) /\
    player_at (processMatch m s) i
      = updateRating (rating p1 + kFactor m * (a1 - e1)) (rec1 p1) /\
    player_at (processMatch m s) j
      = updateRating (rating p2 + kFactor m * (a2 - e2)) (rec2 p2) /\
    (forall k, k <> i -> k <> j -> player_at (processMatch m s) k
                                    = player_at s k).
Proof.
  intros Hij Hi Hj; cbv zeta; unfold processMatch.
  destruct (Z.eqb_spec (result m) 1) as [E1|E1];
    [|destruct (Z.eqb_spec (result m) (-1)) as [E2|E2]].
  - exists 1, 0, recordWin, recordLoss.
    split; [lra|]. split; [left; auto|].
    split; [|split]; [store_simpl; reflexivity .. |].
    intros k Hk1 Hk2; store_simpl; reflexivity.
  - exists 0, 1, recordLoss, recordWin.
    split; [lra|]. split; [right; left; auto|].
    split; [|split]; [store_simpl; reflexivity .. |].
    intros k Hk1 Hk2; store_simpl; reflexivity.
  - exists 0.5, 0.5, recordDraw, recordDraw.
    split; [lra|]. split; [right; right; repeat split; assumption|].
    split; [|split]; [store_simpl; reflexivity .. |].
    intros k Hk1 Hk2; store_simpl; reflexivity.
Qed.

(** [processMatch] with both references on the same player. *)
Lemma processMatch_same (i : nat) (res : Z) (K : R) (s : Store) :
  let p := player_at s i in
  let a2 := if Z.eqb res 1 then 0 else if Z.eqb res (-1) then 1 else 0.5 in
  let rec := if Z.eqb res 1 then fun q => recordLoss (recordWin q)
             else if Z.eqb res (-1) then fun q => recordWin (recordLoss q)
             else fun q => recordDraw (recordDraw q) in
  processMatch (mkMatch i i res K) s
  = modify (fun _ => updateRating (rating p + K * (a2 - 1 / 2)) (rec p)) i s.
Proof.
  cbv zeta; unfold processMatch; cbn [player1 player2 result kFactor].
  rewrite expected_score_same.
  destruct (Z.eqb res 1); [|destruct (Z.eqb res (-1))];
    rewrite !modify_modify_same; apply modify_ext_at; reflexivity.
Qed.

Lemma Rmax_clamp (r : R) : (if Rlt_dec r 0 then 0 else r) = Rmax 0 r.
Proof.
  destruct (Rlt_dec r 0).
  - rewrite Rmax_left; lra.
  - rewrite Rmax_right; lra.
Qed.

(** ** C1: the rating update of [processMatch] *)

(** C1. For two distinct players with pre-match ratings r1 and r2, result
    code 1, -1 or 0 and K-factor k, [processMatch] leaves each player with
    rating [r_i + k * (actual_i - expected_i)], the expected scores both
    computed from the pre-match ratings, the actual scores (1, 0), (0, 1)
    and (0.5, 0.5), after exactly one call of the matching recording
    function on each player (win/loss mirrored, a draw on both); no other
    player changes. *)
Theorem processMatch_elo_update (m : Match) (s : Store)
  (Hij : player1 m <> player2 m)
  (Hi : (player1 m < List.length s)%nat)
  (Hj : (player2 m < List.length s)%nat) :
  let p1 := player_at s (player1 m) in
  let p2 := player_at s (player2 m) in
  let e1 := calculateExpectedScore (rating p1) (rating p2) in
  let e2 := calculateExpectedScore (rating p2) (rating p1) in
  let s' := processMatch m s in
  (result m = 1%Z ->
     player_at s' (player1 m)
       = updateRating (rating p1 + kFactor m * (1 - e1)) (recordWin p1) /\
     player_at s' (player2 m)
       = updateRating (rating p2 + kFactor m * (0 - e2)) (recordLoss p2)) /\
  (result m = (-1)%Z ->
     player_at s' (player1 m)
       = updateRating (rating p1 + kFactor m * (0 - e1)) (recordLoss p1) /\
     player_at s' (player2 m)
       = updateRating (rating p2 + kFactor m * (1 - e2)) (recordWin p2)) /\
  (result m = 0%Z ->
     player_at s' (player1 m)
       = updateRating (rating p1 + kFactor m * (0.5 - e1)) (recordDraw p1) /\
     player_at s' (player2 m)
       = updateRating (rating p2 + kFactor m * (0.5 - e2)) (recordDraw p2)) /\
  (forall k, k <> player1 m -> k <> player2 m ->
     player_at s' k = player_at s k).
Proof.
  destruct (processMatch_distinct m s Hij Hi Hj)
    as (a1 & a2 & rec1 & rec2 & _ & Hcase & H1 & H2 & Hk).
  cbv zeta; split; [|split; [|split]];
    [intros Hr .. | intros k Hk1 Hk2; now apply Hk];
    destruct Hcase as [(E & -> & -> & -> & ->)
                      |[(E & -> & -> & -> & ->)
                       |(E1 & E2 & -> & -> & -> & ->)]];
    rewrite Hr in *; try discriminate; try congruence; auto.
Qed.

(** ** C2: zero-sum *)

(** C2. For two distinct players, any result code and any K-factor, the sum
    of the two ratings after [processMatch] equals the sum before. *)
Theorem processMatch_zero_sum (m : Match) (s : Store)
  (Hij : player1 m <> player2 m)
  (Hi : (player1 m < List.length s)%nat)
  (Hj : (player2 m < List.length s)%nat) :
  rating (player_at (processMatch m s) (player1 m))
  + rating (player_at (processMatch m s) (player2 m))
  = rating (player_at s (player1 m)) + rating (player_at s (player2 m)).
Proof.
  destruct (processMatch_distinct m s Hij Hi Hj)
    as (a1 & a2 & rec1 & rec2 & Ha & Hcase & H1 & H2 & _).
  rewrite H1, H2; cbn [rating updateRating].
  pose proof (expected_score_sum (rating (player_at s (player1 m)))
                                 (rating (player_at s (player2 m)))) as Hs.
  replace a2 with (1 - a1) by lra.
  nra.
Qed.

(** ** C3: symmetry of the expected score *)

(** C3. For all ratings a and b,
    [calculateExpectedScore a b + calculateExpectedScore b a = 1], and
    [calculateExpectedScore x x = 0.5] for every rating x. *)
Theorem expected_score_symmetric :
  (forall a b : R,
     calculateExpectedScore a b + calculateExpectedScore b a = 1) /\
  (forall x : R, calculateExpectedScore x x = 0.5).
Proof.
  split.
  - exact expected_score_sum.
  - intros x; rewrite expected_score_same; lra.
Qed.

(** ** C4: the statistics invariant of Player *)

(** C4. From construction, after any sequence of calls to [recordWin],
    [recordLoss], [recordDraw] and [updateRating], [gamesPlayed] equals
    [wins + losses + draws]; each recording call adds one to exactly one
    outcome counter and to [gamesPlayed], and [updateRating] leaves the
    counters alone. *)
Theorem player_stats_invariant :
  (forall (n : string) (r : R) (ops : list PlayerOp),
     stats_consistent (run_ops ops (Player_new n r))) /\
  (forall p : Player,
     (gamesPlayed (recordWin p), wins (recordWin p), losses (recordWin p),
      draws (recordWin p))
     = ((gamesPlayed p + 1)%Z, (wins p + 1)%Z, losses p, draws p) /\
     (gamesPlayed (recordLoss p), wins (recordLoss p), losses (recordLoss p),
      draws (recordLoss p))
     = ((gamesPlayed p + 1)%Z, wins p, (losses p + 1)%Z, draws p) /\
     (gamesPlayed (recordDraw p), wins (recordDraw p), losses (recordDraw p),
      draws (recordDraw p))
     = ((gamesPlayed p + 1)%Z, wins p, losses p, (draws p + 1)%Z)) /\
  (forall (p : Player) (v : R),
     (gamesPlayed (updateRating v p), wins (updateRating v p),
      losses (updateRating v p), draws (updateRating v p))
     = (gamesPlayed p, wins p, losses p, draws p)).
Proof.
  split; [|split]; [| intros p; repeat split | reflexivity].
  intros n r ops.
  assert (Hgen : forall p, stats_consistent p ->
                           stats_consistent (run_ops ops p)).
  { unfold run_ops; induction ops as [|o ops IH]; intros p Hp; simpl; auto.
    apply IH. unfold stats_consistent in *.
    destruct o; simpl; lia. }
  apply Hgen. unfold stats_consistent, Player_new. reflexivity.
Qed.

(** ** C5: [recordMatch] with a missing name *)

(** C5. If either name has no player in the RankingSystem, [recordMatch]
    returns it unchanged: no player is mutated and the players are the
    same. *)
Theorem recordMatch_missing_name (name1 name2 : string) (res : Z)
  (s : RankingSystem)
  (H : findPlayer name1 s = None \/ findPlayer name2 s = None) :
  recordMatch name1 name2 res s = s.
Proof.
  unfold recordMatch.
  destruct H as [H|H]; rewrite H; [reflexivity|].
  destruct (findPlayer name1 s); reflexivity.
Qed.

(** ** C6: the rating floor of the constructor *)

(** C6. The constructor stores [max 0 r] with all counters 0 (so
    [Player("X", -100.0)] has rating 0), while [updateRating v] stores [v]
    as given and changes nothing else, so a negative value set after
    construction stays negative. *)
Theorem player_floor_at_construction_only :
  (forall (n : string) (r : R), Player_new n r = mkPlayer n (Rmax 0 r) 0 0 0 0) /\
  rating (Player_new "X" (-100)) = 0 /\
  (forall (p : Player) (v : R),
     updateRating v p
     = mkPlayer (name p) v (gamesPlayed p) (wins p) (losses p) (draws p)) /\
  rating (updateRating (-100) (Player_new "X" 1200)) = -100.
Proof.
  split; [|split; [|split]].
  - intros n r; unfold Player_new; now rewrite Rmax_clamp.
  - unfold Player_new; destruct (Rlt_dec (-100) 0); simpl; lra.
  - reflexivity.
  - reflexivity.
Qed.

(** ** C9: upsets pay more *)

(** C9. For K > 0 and a gap g > 0, when player 1 wins, the winner's gain is
    strictly larger when the winner is rated g below the opponent (an upset,
    players [p1], [p2]) than when the winner is rated g above the opponent
    (an expected win, players [q1], [q2]). *)
Theorem upset_win_gains_more (K g : R) (p1 p2 q1 q2 : Player)
  (HK : 0 < K) (Hg : 0 < g)
  (Hup : rating p2 = rating p1 + g)
  (Hexp : rating q1 = rating q2 + g) :
  rating (player_at (processMatch (mkMatch 0 1 1 K) [p1; p2]) 0) - rating p1
  > rating (player_at (processMatch (mkMatch 0 1 1 K) [q1; q2]) 0)
    - rating q1.
Proof.
  unfold processMatch, player_at; cbn -[calculateExpectedScore Rplus Rmult
                                        Rminus Rdiv].
  unfold calculateExpectedScore.
  rewrite Hup, Hexp.
  replace ((rating p1 + g - rating p1) / 400) with (g / 400) by field.
  replace ((rating q2 - (rating q2 + g)) / 400) with (- (g / 400)) by field.
  assert (Hlt : Rpower 10 (- (g / 400)) < Rpower 10 (g / 400)).
  { apply Rpower_lt; lra. }
  pose proof (Rpower10_pos (- (g / 400))) as Hpos.
  assert (Hinv : 1 / (1 + Rpower 10 (g / 400))
                 < 1 / (1 + Rpower 10 (- (g / 400)))).
  { unfold Rdiv; rewrite !Rmult_1_l; apply Rinv_lt_contravar; nra. }
  nra.
Qed.

(** ** C10: a match of a player against itself *)

(** C10. If [n] names the player at position [i], [recordMatch n n] is
    carried out: both references of the Match are that player, whose
    rating [r] gives expected score 0.5 to both sides; the second rating
    write overwrites the first, so the player ends with rating
    [r + K * (actual2 - 0.5)] (K = 32): [r - 16] after result 1 (a win and
    a loss recorded), [r + 16] after result -1 (a loss and a win) and [r]
    after result 0 (two draws); [gamesPlayed] grows by 2 in each case. *)
Theorem recordMatch_same_name (n : string) (s : RankingSystem) (i : nat)
  (H : findPlayer n s = Some i) :
  let p := player_at s i in
  recordMatch n n 1 s
  = modify (fun _ => mkPlayer (name p) (rating p - default_kFactor / 2)
                              (gamesPlayed p + 2) (wins p + 1)
                              (losses p + 1) (draws p)) i s /\
  recordMatch n n (-1) s
  = modify (fun _ => mkPlayer (name p) (rating p + default_kFactor / 2)
                              (gamesPlayed p + 2) (wins p + 1)
                              (losses p + 1) (draws p)) i s /\
  recordMatch n n 0 s
  = modify (fun _ => mkPlayer (name p) (rating p)
                              (gamesPlayed p + 2) (wins p)
                              (losses p) (draws p + 2)) i s.
Proof.
  cbv zeta; unfold recordMatch; rewrite H.
  split; [|split]; rewrite processMatch_same; cbn [Z.eqb Pos.eqb];
    apply modify_ext_at; unfold updateRating, recordWin, recordLoss,
    recordDraw; cbn [name rating gamesPlayed wins losses draws];
    f_equal; try ring; unfold default_kFactor; lra.
Qed.

(** ** Persistence: C7 and C8 *)

(** A name that the field view of a CSV line represents faithfully: no
    [','] (the delimiter of [getline(ss, name, ',')]) and no newline (the
    delimiter of [getline(file, line)]). *)
Fixpoint csv_safe_name (n : string) : bool :=
  match n with
  | EmptyString => true
  | String c n' =>
      negb (Ascii.eqb c ","%char) && negb (Ascii.eqb c "010"%char)
      && csv_safe_name n'
  end.

(** A player as every reachable state has it: non-negative counters whose
    sum is [gamesPlayed], and a name that survives the CSV line. *)
Definition saveable (p : Player) : Prop :=
  csv_safe_name (name p) = true /\
  (0 <= wins p)%Z /\ (0 <= losses p)%Z /\ (0 <= draws p)%Z /\
  stats_consistent p.

Lemma iter_recordWin (k : nat) (p : Player) :
  Nat.iter k recordWin p
  = mkPlayer (name p) (rating p) (gamesPlayed p + Z.of_nat k)%Z
             (wins p + Z.of_nat k)%Z (losses p) (draws p).
Proof.
  induction k as [|k IH]; simpl Nat.iter.
  - destruct p; simpl; f_equal; lia.
  - rewrite IH; unfold recordWin; simpl; f_equal; lia.
Qed.

Lemma iter_recordLoss (k : nat) (p : Player) :
  Nat.iter k recordLoss p
  = mkPlayer (name p) (rating p) (gamesPlayed p + Z.of_nat k)%Z
             (wins p) (losses p + Z.of_nat k)%Z (draws p).
Proof.
  induction k as [|k IH]; simpl Nat.iter.
  - destruct p; simpl; f_equal; lia.
  - rewrite IH; unfold recordLoss; simpl; f_equal; lia.
Qed.

Lemma iter_recordDraw (k : nat) (p : Player) :
  Nat.iter k recordDraw p
  = mkPlayer (name p) (rating p) (gamesPlayed p + Z.of_nat k)%Z
             (wins p) (losses p) (draws p + Z.of_nat k)%Z.
Proof.
  induction k as [|k IH]; simpl Nat.iter.
  - destruct p; simpl; f_equal; lia.
  - rewrite IH; unfold recordDraw; simpl; f_equal; lia.
Qed.

Lemma load_line_rating (l : CsvLine) :
  rating (load_line l) = Rmax 0 (csv_rating l).
Proof.
  unfold load_line, repeat_call.
  rewrite iter_recordDraw, iter_recordLoss, iter_recordWin; simpl.
  apply Rmax_clamp.
Qed.

Lemma Player_new_zero (n : string) : Player_new n 0 = mkPlayer n 0 0 0 0 0.
Proof. unfold Player_new; destruct (Rlt_dec 0 0); reflexivity. Qed.

(** Two players added at rating 0, then the second wins: the first drops
    to -16 (ratings are floored only by the constructor). *)
Definition negative_rating_system : RankingSystem :=
  recordMatch "A" "B" (-1) (addPlayer "B" 0 (addPlayer "A" 0 [])).

(** C7 (counterexample). A rating that has gone negative is written as is
    but reloaded through the Player constructor, which floors it at 0: the
    reloaded player "A" does not have the saved rating -16. *)
Lemma save_load_roundtrip_counterexample :
  rating (player_at negative_rating_system 0) = -16 /\
  rating (player_at (loadFromFile (Some (saveToFile negative_rating_system))
                                  []) 0)
  <> rating (player_at negative_rating_system 0).
Proof.
  assert (Hs : negative_rating_system
               = processMatch (mkMatch 0 1 (-1) default_kFactor)
                   [Player_new "A" 0; Player_new "B" 0]) by reflexivity.
  assert (HA : rating (player_at negative_rating_system 0) = -16).
  { rewrite Hs, !Player_new_zero. unfold processMatch, player_at.
    cbn -[calculateExpectedScore Rplus Rmult Rminus Rdiv].
    rewrite expected_score_same. unfold default_kFactor. lra. }
  split; [exact HA|].
  unfold loadFromFile, saveToFile, player_at.
  destruct negative_rating_system as [|p s]; [simpl in HA; lra|].
  unfold player_at in HA; simpl in HA |- *.
  rewrite load_line_rating; simpl. rewrite HA.
  pose proof (Rmax_l 0 (fmt6 (-16))). lra.
Qed.

(** C7 (amended). Saving a RankingSystem whose players have names without
    [','] or newline and non-negative, consistent counters, and loading the
    file into any RankingSystem, gives back the players in order with the
    same name and the same four counters; each rating comes back as the
    value of its 6-significant-digit text, floored at 0 by the
    constructor. *)
Theorem save_load_roundtrip (s s0 : RankingSystem) (H : Forall saveable s) :
  loadFromFile (Some (saveToFile s)) s0
  = map (fun p => mkPlayer (name p) (Rmax 0 (fmt6 (rating p)))
                           (gamesPlayed p) (wins p) (losses p) (draws p)) s.
Proof.
  unfold loadFromFile, saveToFile. rewrite map_map.
  apply map_ext_in. intros p Hin.
  rewrite Forall_forall in H.
  destruct (H p Hin) as (_ & Hw & Hl & Hd & Hc).
  unfold stats_consistent in Hc.
  unfold load_line, save_line, repeat_call; cbn [csv_name csv_rating
    csv_wins csv_losses csv_draws].
  rewrite iter_recordDraw, iter_recordLoss, iter_recordWin.
  unfold Player_new; cbn [name rating gamesPlayed wins losses draws].
  rewrite Rmax_clamp, !Z2Nat.id by assumption.
  f_equal; lia.
Qed.

(** C8 (counterexample). A file that cannot be opened makes
    [loadFromFile] return before [players.clear()]: a RankingSystem holding
    one player still holds it. *)
Lemma load_missing_file_counterexample :
  getPlayerCount (loadFromFile None (addPlayer "Alice" 1200 [])) = 1%nat.
Proof. reflexivity. Qed.

(** C8 (amended). Loading from a file that cannot be opened is not an error
    and leaves the RankingSystem unchanged; in particular a fresh (empty)
    RankingSystem stays empty. *)
Theorem load_missing_file_unchanged :
  (forall s : RankingSystem, loadFromFile None s = s) /\
  getPlayerCount (loadFromFile None []) = 0%nat.
Proof. split; reflexivity. Qed.

(** ** Witnesses: the theorems applied at concrete inputs *)

Definition two_players : RankingSystem :=
  [mkPlayer "A" 1200 0 0 0 0; mkPlayer "B" 1200 0 0 0 0].

Lemma processMatch_elo_update_witness :
  player_at (processMatch (mkMatch 0 1 1 32) two_players) 0
  = updateRating (1200 + 32 * (1 - calculateExpectedScore 1200 1200))
                 (recordWin (player_at two_players 0)).
Proof.
  destruct (processMatch_elo_update (mkMatch 0 1 1 32) two_players
              ltac:(discriminate) ltac:(simpl; lia) ltac:(simpl; lia))
    as [H1 _].
  exact (proj1 (H1 eq_refl)).
Defined.

Lemma processMatch_zero_sum_witness :
  rating (player_at (processMatch (mkMatch 0 1 (-1) 32) two_players) 0)
  + rating (player_at (processMatch (mkMatch 0 1 (-1) 32) two_players) 1)
  = 1200 + 1200.
Proof.
  exact (processMatch_zero_sum (mkMatch 0 1 (-1) 32) two_players
           ltac:(discriminate) ltac:(simpl; lia) ltac:(simpl; lia)).
Defined.

Lemma recordMatch_missing_name_witness :
  recordMatch "Zed" "A" 1 two_players = two_players.
Proof.
  apply (recordMatch_missing_name "Zed" "A" 1 two_players).
  left; reflexivity.
Defined.

Lemma upset_win_gains_more_witness :
  rating (player_at (processMatch (mkMatch 0 1 1 32)
            [mkPlayer "A" 1100 0 0 0 0; mkPlayer "B" 1200 0 0 0 0]) 0) - 1100
  > rating (player_at (processMatch (mkMatch 0 1 1 32)
            [mkPlayer "C" 1200 0 0 0 0; mkPlayer "D" 1100 0 0 0 0]) 0) - 1200.
Proof.
  apply (upset_win_gains_more 32 100
           (mkPlayer "A" 1100 0 0 0 0) (mkPlayer "B" 1200 0 0 0 0)
           (mkPlayer "C" 1200 0 0 0 0) (mkPlayer "D" 1100 0 0 0 0));
    simpl; lra.
Defined.

Lemma recordMatch_same_name_witness :
  recordMatch "A" "A" 1 two_players
  = modify (fun _ => mkPlayer "A" (1200 - default_kFactor / 2)
                              (0 + 2) (0 + 1) (0 + 1) 0) 0 two_players.
Proof.
  exact (proj1 (recordMatch_same_name "A" two_players 0 eq_refl)).
Defined.

Lemma save_load_roundtrip_witness :
  loadFromFile (Some (saveToFile [mkPlayer "Alice" 1216 1 1 0 0;
                                  mkPlayer "Bob" 1184 1 0 1 0])) []
  = [mkPlayer "Alice" (Rmax 0 (fmt6 1216)) 1 1 0 0;
     mkPlayer "Bob" (Rmax 0 (fmt6 1184)) 1 0 1 0].
Proof.
  apply (save_load_roundtrip [mkPlayer "Alice" 1216 1 1 0 0;
                              mkPlayer "Bob" 1184 1 0 1 0] []).
  repeat constructor; unfold stats_consistent; simpl; lia.
Defined.

(** ** Further facts about the store and the lookup *)

Lemma findPlayer_from_None (k : nat) (n : string) (s : RankingSystem) :
  findPlayer_from k n s = None <-> ~ In n (map name s).
Proof.
  revert k; induction s as [|p s IH]; intros k; simpl; [tauto|].
  destruct (String.eqb_spec (name p) n) as [E|E].
  - split; [discriminate|]. intros H; exfalso; apply H; auto.
  - rewrite IH. intuition.
Qed.

Lemma findPlayer_from_first (k : nat) (n : string) (s : RankingSystem)
  (i : nat) :
  findPlayer_from k n s = Some i ->
  forall j, (j < i - k)%nat -> name (player_at s j) <> n.
Proof.
  unfold player_at; revert k; induction s as [|p s IH]; intros k H j Hj;
    simpl in H; [discriminate|].
  destruct (String.eqb_spec (name p) n) as [E|E].
  - injection H as <-. lia.
  - destruct (findPlayer_from_spec n s (S k) i H) as (Hk & _).
    destruct j as [|j]; simpl; [exact E|].
    apply (IH (S k) H); lia.
Qed.

Lemma In_findPlayer (n : string) (s : RankingSystem) :
  In n (map name s) -> exists i, findPlayer n s = Some i.
Proof.
  intros H. destruct (findPlayer n s) as [i|] eqn:E; [eauto|].
  exfalso. apply (proj1 (findPlayer_from_None 0 n s) E), H.
Qed.

Lemma modify_names (f : Player -> Player) (i : nat) (s : Store) :
  (forall p, name (f p) = name p) -> map name (modify f i s) = map name s.
Proof.
  intros Hf; revert i; induction s as [|p s IH]; intros [|i]; simpl; auto.
  - now rewrite Hf.
  - now rewrite IH.
Qed.



Lemma processMatch_names (m : Match) (s : Store) :
  map name (processMatch m s) = map name s.
Proof.
  unfold processMatch.
  destruct (Z.eqb (result m) 1); [|destruct (Z.eqb (result m) (-1))];
    rewrite !modify_names; reflexivity.
Qed.

Lemma processMatch_length (m : Match) (s : Store) :
  List.length (processMatch m s) = List.length s.
Proof.
  rewrite <- (length_map name), processMatch_names, length_map.
  reflexivity.
Qed.

Lemma total_rating_modify (f : Player -> Player) (i : nat) (s : Store) :
  (i < List.length s)%nat ->
  total_rating (modify f i s)
  = total_rating s - rating (player_at s i) + rating (f (player_at s i)).
Proof.
  unfold player_at; revert i; induction s as [|p s IH]; intros [|i] Hi;
    simpl in *; try lia.
  - lra.
  - rewrite IH by lia. lra.
Qed.

Lemma total_games_modify (f : Player -> Player) (i : nat) (s : Store) :
  (i < List.length s)%nat ->
  total_games (modify f i s)
  = (total_games s - gamesPlayed (player_at s i)
     + gamesPlayed (f (player_at s i)))%Z.
Proof.
  unfold player_at; revert i; induction s as [|p s IH]; intros [|i] Hi;
    simpl in *; try lia.
  rewrite IH by lia. lia.
Qed.

(** On two distinct players, [processMatch] replaces exactly those two. *)
Lemma processMatch_as_two_writes (m : Match) (s : Store) :
  player1 m <> player2 m ->
  (player1 m < List.length s)%nat -> (player2 m < List.length s)%nat ->
  processMatch m s
  = modify (fun _ => player_at (processMatch m s) (player1 m)) (player1 m)
      (modify (fun _ => player_at (processMatch m s) (player2 m)) (player2 m)
         s).
Proof.
  intros Hij Hi Hj.
  destruct (processMatch_distinct m s Hij Hi Hj)
    as (a1 & a2 & rec1 & rec2 & _ & _ & _ & _ & Hk).
  apply nth_ext with (d := dflt_player) (d' := dflt_player).
  { rewrite processMatch_length, !modify_length; reflexivity. }
  intros k _. fold (player_at (processMatch m s) k).
  fold (player_at (modify (fun _ => player_at (processMatch m s) (player1 m))
          (player1 m) (modify (fun _ => player_at (processMatch m s)
                                         (player2 m)) (player2 m) s)) k).
  destruct (Nat.eq_dec k (player1 m)) as [->|H1];
    [|destruct (Nat.eq_dec k (player2 m)) as [->|H2]];
    store_simpl; auto.
Qed.

(** The rating sum and the games played by two distinct players after
    [processMatch]. *)
Lemma processMatch_distinct_sums (m : Match) (s : Store) :
  player1 m <> player2 m ->
  (player1 m < List.length s)%nat -> (player2 m < List.length s)%nat ->
  rating (player_at (processMatch m s) (player1 m))
  + rating (player_at (processMatch m s) (player2 m))
  = rating (player_at s (player1 m)) + rating (player_at s (player2 m)) /\
  gamesPlayed (player_at (processMatch m s) (player1 m))
  = (gamesPlayed (player_at s (player1 m)) + 1)%Z /\
  gamesPlayed (player_at (processMatch m s) (player2 m))
  = (gamesPlayed (player_at s (player2 m)) + 1)%Z.
Proof.
  intros Hij Hi Hj.
  destruct (processMatch_distinct m s Hij Hi Hj)
    as (a1 & a2 & rec1 & rec2 & Ha & Hcase & H1 & H2 & _).
  rewrite H1, H2; cbn [rating gamesPlayed updateRating].
  pose proof (expected_score_sum (rating (player_at s (player1 m)))
                                 (rating (player_at s (player2 m)))) as Hs.
  split; [replace a2 with (1 - a1) by lra; nra|].
  destruct Hcase as [(_ & _ & _ & -> & ->)|[(_ & _ & _ & -> & ->)
                     |(_ & _ & _ & _ & -> & ->)]]; split; reflexivity.
Qed.

Lemma findPlayer_from_app (k : nat) (n : string) (s t : RankingSystem) :
  ~ In n (map name s) ->
  findPlayer_from k n (s ++ t) = findPlayer_from (k + List.length s) n t.
Proof.
  revert k; induction s as [|p s IH]; intros k H; simpl.
  - now rewrite Nat.add_0_r.
  - destruct (String.eqb_spec (name p) n) as [E|E].
    + exfalso; apply H; simpl; auto.
    + rewrite IH by (simpl in H; tauto). f_equal; lia.
Qed.

(** ** Further properties of the code *)

(** [findPlayer] finds nothing exactly when no player has the name, and
    otherwise returns the position of the first player with that name. *)
Theorem findPlayer_first_match (n : string) (s : RankingSystem) :
  (findPlayer n s = None <-> ~ In n (getAllPlayerNames s)) /\
  (forall i, findPlayer n s = Some i ->
     (i < List.length s)%nat /\ name (player_at s i) = n /\
     (forall j, (j < i)%nat -> name (player_at s j) <> n)).
Proof.
  split; [apply findPlayer_from_None|].
  intros i H. destruct (findPlayer_spec n s i H) as [H1 H2].
  repeat split; auto.
  intros j Hj. apply (findPlayer_from_first 0 n s i H). lia.
Qed.

(** [addPlayer] with a name already present changes nothing; with a new
    name it appends one player built by the constructor, which [findPlayer]
    then finds at the last position. *)
Theorem addPlayer_spec (n : string) (r : R) (s : RankingSystem) :
  (In n (getAllPlayerNames s) -> addPlayer n r s = s) /\
  (~ In n (getAllPlayerNames s) ->
     addPlayer n r s = s ++ [Player_new n r] /\
     findPlayer n (addPlayer n r s) = Some (List.length s)).
Proof.
  unfold addPlayer. split.
  - intros H. destruct (In_findPlayer n s H) as [i ->]. reflexivity.
  - intros H. pose proof (proj2 (findPlayer_from_None 0 n s) H) as E.
    unfold findPlayer in *; rewrite E. split; [reflexivity|].
    rewrite findPlayer_from_app by exact H. simpl.
    now rewrite String.eqb_refl.
Qed.

Lemma recordMatch_names (name1 name2 : string) (res : Z)
  (s : RankingSystem) :
  getAllPlayerNames (recordMatch name1 name2 res s) = getAllPlayerNames s.
Proof.
  unfold recordMatch, getAllPlayerNames.
  destruct (findPlayer name1 s); [destruct (findPlayer name2 s)|];
    auto using processMatch_names.
Qed.

(** [recordMatch] never adds, removes, renames or reorders players. *)
Theorem recordMatch_keeps_names (name1 name2 : string) (res : Z)
  (s : RankingSystem) :
  getAllPlayerNames (recordMatch name1 name2 res s) = getAllPlayerNames s.
Proof. exact (recordMatch_names name1 name2 res s). Qed.

(** [getOtherPlayers] never lists the player itself and lists every other
    registered name; with unique names and the player registered, it lists
    one name fewer than there are players. *)
Theorem getOtherPlayers_spec (s : RankingSystem) (playerName : string) :
  ~ In playerName (getOtherPlayers s playerName) /\
  (forall n, n <> playerName -> In n (getAllPlayerNames s) ->
     In n (getOtherPlayers s playerName)) /\
  (NoDup (getAllPlayerNames s) -> In playerName (getAllPlayerNames s) ->
     List.length (getOtherPlayers s playerName) = (List.length s - 1)%nat).
Proof.
  unfold getOtherPlayers. split; [|split].
  - rewrite filter_In, String.eqb_refl. simpl. intros [_ H]; discriminate.
  - intros n Hn Hin. apply filter_In. split; auto.
    destruct (String.eqb_spec n playerName); [contradiction|reflexivity].
  - unfold getAllPlayerNames. intros Hnd Hin.
    rewrite <- (length_map name s).
    induction (map name s) as [|x l IH]; [contradiction|].
    inversion Hnd as [|? ? Hx Hl]; subst. simpl.
    destruct (String.eqb_spec x playerName) as [->|E]; simpl.
    + assert (Hf : filter (fun n => negb (String.eqb n playerName)) l = l).
      { clear - Hx. induction l as [|y l IH]; simpl; auto.
        destruct (String.eqb_spec y playerName) as [->|E].
        - exfalso; apply Hx; simpl; auto.
        - simpl; f_equal; apply IH; simpl in Hx; tauto. }
      rewrite Hf; lia.
    + destruct Hin as [->|Hin]; [contradiction|].
      rewrite IH by auto. destruct l; simpl in *; [contradiction|lia].
Qed.

Lemma findRandomOpponent_nonempty (opponents : list string) (rnd : nat) :
  opponents <> [] -> In (findRandomOpponent opponents rnd) opponents.
Proof.
  intros H. unfold findRandomOpponent.
  destruct opponents as [|o os]; [contradiction|].
  apply nth_In. apply Nat.mod_upper_bound. simpl; lia.
Qed.

(** [findRandomOpponent] returns [""] for no opponents and otherwise one of
    the opponents, whatever [rand()] returned. *)
Theorem findRandomOpponent_in (opponents : list string) (rnd : nat) :
  (opponents = [] -> findRandomOpponent opponents rnd = EmptyString) /\
  (opponents <> [] -> In (findRandomOpponent opponents rnd) opponents).
Proof.
  split; [intros ->; reflexivity|].
  intros H. unfold findRandomOpponent.
  destruct opponents as [|o os]; [contradiction|].
  apply nth_In. apply Nat.mod_upper_bound. simpl; lia.
Qed.


Lemma expected_score_open_unit (a b : R) :
  0 < calculateExpectedScore a b < 1.
Proof.
  unfold calculateExpectedScore.
  pose proof (Rpower10_pos ((b - a) / 400)) as Hp.
  set (t := Rpower 10 ((b - a) / 400)) in *.
  split.
  - apply Rdiv_lt_0_compat; lra.
  - apply (Rmult_lt_reg_r (1 + t)); [lra|].
    unfold Rdiv; rewrite Rmult_assoc, Rinv_l by lra. lra.
Qed.

(** The expected score lies strictly between 0 and 1. *)
Theorem expected_score_bounds (a b : R) :
  0 < calculateExpectedScore a b < 1.
Proof. exact (expected_score_open_unit a b). Qed.

Lemma Z_of_nat_to_nat_max (z : Z) : Z.of_nat (Z.to_nat z) = Z.max 0 z.
Proof. lia. Qed.

Lemma load_line_eq (l : CsvLine) :
  load_line l
  = mkPlayer (csv_name l) (Rmax 0 (csv_rating l))
      (Z.max 0 (csv_wins l) + Z.max 0 (csv_losses l) + Z.max 0 (csv_draws l))
      (Z.max 0 (csv_wins l)) (Z.max 0 (csv_losses l))
      (Z.max 0 (csv_draws l)).
Proof.
  unfold load_line, repeat_call.
  rewrite iter_recordDraw, iter_recordLoss, iter_recordWin.
  unfold Player_new; cbn [name rating gamesPlayed wins losses draws].
  rewrite Rmax_clamp, !Z_of_nat_to_nat_max. f_equal; lia.
Qed.

Lemma findMatchMenu_cases (n : string) (rnd : nat) (res : Z)
  (s : RankingSystem) :
  findMatchMenu n rnd res s = s \/
  exists opp, opp <> n /\ In n (getAllPlayerNames s) /\
    In opp (getAllPlayerNames s) /\
    findMatchMenu n rnd res s = recordMatch n opp res s.
Proof.
  unfold findMatchMenu.
  destruct (findPlayer n s) as [i|] eqn:Ei; [|left; reflexivity].
  destruct (getOtherPlayers s n) as [|o os] eqn:Eo; [left; reflexivity|].
  destruct (negb (Z.eqb res 1) && negb (Z.eqb res 0) && negb (Z.eqb res (-1)));
    [left; reflexivity|right].
  set (opp := findRandomOpponent (o :: os) rnd).
  assert (Hin : In opp (getOtherPlayers s n)).
  { rewrite Eo. apply findRandomOpponent_nonempty. discriminate. }
  unfold getOtherPlayers in Hin. apply filter_In in Hin as [Hin Hne].
  exists opp. repeat split; auto.
  - intros E; rewrite E, String.eqb_refl in Hne; discriminate.
  - destruct (findPlayer_spec n s i Ei) as [Hi Hn].
    rewrite <- Hn. unfold getAllPlayerNames, player_at.
    apply in_map, nth_In, Hi.
Qed.

Lemma NoDup_addPlayer (n : string) (r : R) (s : RankingSystem) :
  NoDup (getAllPlayerNames s) -> NoDup (getAllPlayerNames (addPlayer n r s)).
Proof.
  intros H. unfold addPlayer.
  destruct (findPlayer n s) eqn:E; auto.
  apply findPlayer_from_None in E.
  unfold getAllPlayerNames in *. rewrite map_app; simpl.
  apply NoDup_app; auto.
  - repeat constructor; simpl; tauto.
  - intros a Ha [<-|[]]. contradiction.
Qed.



(** [recordMatch] between two different names keeps the sum of all ratings,
    and adds 2 to the games played when both are registered. *)
Lemma recordMatch_distinct_totals_aux (n1 n2 : string) (res : Z)
  (s : RankingSystem) :
  n1 <> n2 ->
  total_rating (recordMatch n1 n2 res s) = total_rating s /\
  (In n1 (getAllPlayerNames s) -> In n2 (getAllPlayerNames s) ->
     total_games (recordMatch n1 n2 res s) = (total_games s + 2)%Z).
Proof.
  intros Hne. unfold recordMatch.
  destruct (findPlayer n1 s) as [i|] eqn:Ei;
    [destruct (findPlayer n2 s) as [j|] eqn:Ej|].
  2: { split; [reflexivity|]. intros _ H2.
       apply findPlayer_from_None in Ej. contradiction. }
  2: { split; [reflexivity|]. intros H1 _.
       apply findPlayer_from_None in Ei. contradiction. }
  destruct (findPlayer_spec n1 s i Ei) as [Hi Hn1].
  destruct (findPlayer_spec n2 s j Ej) as [Hj Hn2].
  assert (Hij : i <> j) by (intros ->; congruence).
  set (m := mkMatch i j res default_kFactor).
  destruct (processMatch_distinct_sums m s Hij Hi Hj) as (Hr & Hg1 & Hg2).
  rewrite (processMatch_as_two_writes m s Hij Hi Hj). cbn [player1 player2].
  rewrite total_rating_modify, total_rating_modify,
    total_games_modify, total_games_modify
    by (rewrite ?modify_length; assumption).
  rewrite !(player_at_modify_other _ j i) by congruence.
  subst m; cbn [player1 player2] in *.
  split; [lra|]. intros _ _. lia.
Qed.


(** Without loading a file, [addPlayer], [recordMatch] and menu matches
    keep the names of the players pairwise distinct. *)
Theorem unique_names_kept (ops : list SysOp) (s : RankingSystem)
  (Hs : NoDup (getAllPlayerNames s))
  (Hops : forallb (fun o => negb (is_load o)) ops = true) :
  NoDup (getAllPlayerNames (run_sys ops s)).
Proof.
  unfold run_sys; revert s Hs; induction ops as [|o ops IH]; intros s Hs;
    simpl in *; auto.
  apply andb_prop in Hops as [Ho Hops]. apply IH; auto.
  destruct o as [n r|n1 n2 res|f|n rnd res]; simpl in *.
  - auto using NoDup_addPlayer.
  - now rewrite recordMatch_names.
  - discriminate.
  - destruct (findMatchMenu_cases n rnd res s) as [->|(opp & _ & _ & _ & ->)];
      auto. now rewrite recordMatch_names.
Qed.

(** [loadFromFile] on a file that opens replaces all players by one player
    per line, in order: the name of the line, the rating floored at 0 by
    the constructor, each of wins, losses and draws replayed (a negative
    count replays nothing), and games played their sum (the games field of
    the line is ignored). *)
Theorem loadFromFile_builds_players (lines : CsvFile) (s : RankingSystem) :
  loadFromFile (Some lines) s
  = map (fun l => mkPlayer (csv_name l) (Rmax 0 (csv_rating l))
                    (Z.max 0 (csv_wins l) + Z.max 0 (csv_losses l)
                     + Z.max 0 (csv_draws l))
                    (Z.max 0 (csv_wins l)) (Z.max 0 (csv_losses l))
                    (Z.max 0 (csv_draws l))) lines.
Proof.
  simpl. apply map_ext. apply load_line_eq.
Qed.

(** [recordMatch] between two different names keeps the sum of all ratings
    of the RankingSystem; when both names are registered it adds 2 to the
    total of games played. *)
Theorem recordMatch_distinct_totals (n1 n2 : string) (res : Z)
  (s : RankingSystem) (Hne : n1 <> n2) :
  total_rating (recordMatch n1 n2 res s) = total_rating s /\
  (In n1 (getAllPlayerNames s) -> In n2 (getAllPlayerNames s) ->
     total_games (recordMatch n1 n2 res s) = (total_games s + 2)%Z).
Proof. exact (recordMatch_distinct_totals_aux n1 n2 res s Hne). Qed.

(** Case 2 of the menu never pairs a player with itself: whatever is typed
    and whatever [rand()] returns, it keeps the sum of all ratings and the
    list of names. *)
Theorem findMatchMenu_conserves (n : string) (rnd : nat) (res : Z)
  (s : RankingSystem) :
  total_rating (findMatchMenu n rnd res s) = total_rating s /\
  getAllPlayerNames (findMatchMenu n rnd res s) = getAllPlayerNames s.
Proof.
  destruct (findMatchMenu_cases n rnd res s)
    as [->|(opp & Hne & _ & _ & ->)]; [split; reflexivity|].
  split.
  - apply (proj1 (recordMatch_distinct_totals_aux n opp res s
                    (fun E => Hne (eq_sym E)))).
  - apply recordMatch_names.
Qed.

(** The two new ratings of [processMatch] on distinct players, with the
    actual scores of the result code. *)
Lemma processMatch_ratings (m : Match) (s : Store) :
  player1 m <> player2 m ->
  (player1 m < List.length s)%nat -> (player2 m < List.length s)%nat ->
  let r1 := rating (player_at s (player1 m)) in
  let r2 := rating (player_at s (player2 m)) in
  let a1 := if Z.eqb (result m) 1 then 1
            else if Z.eqb (result m) (-1) then 0 else 0.5 in
  rating (player_at (processMatch m s) (player1 m))
  = r1 + kFactor m * (a1 - calculateExpectedScore r1 r2) /\
  rating (player_at (processMatch m s) (player2 m))
  = r2 + kFactor m * ((1 - a1) - calculateExpectedScore r2 r1).
Proof.
  intros Hij Hi Hj.
  destruct (processMatch_distinct m s Hij Hi Hj)
    as (a1 & a2 & rec1 & rec2 & Ha & Hcase & H1 & H2 & _).
  cbv zeta; rewrite H1, H2; cbn [rating updateRating].
  destruct Hcase as [(E & -> & -> & _)|[(E & -> & -> & _)
                     |(E1 & E2 & -> & -> & _)]].
  - rewrite E; simpl. split; f_equal; f_equal; lra.
  - rewrite E; simpl. split; f_equal; f_equal; lra.
  - apply Z.eqb_neq in E1, E2. rewrite E1, E2. split; f_equal; f_equal; lra.
Qed.

Lemma expected_score_lower_below_half (r1 r2 : R) :
  r1 < r2 -> calculateExpectedScore r1 r2 < 1 / 2.
Proof.
  intros H. unfold calculateExpectedScore.
  assert (Hp : 1 < Rpower 10 ((r2 - r1) / 400)).
  { rewrite <- (Rpower_O 10) by lra. apply Rpower_lt; lra. }
  apply Rmult_lt_reg_r with (r := 2 * (1 + Rpower 10 ((r2 - r1) / 400)));
    [lra|].
  field_simplify; lra.
Qed.


(** With K > 0, the winner of a match between two distinct players gains
    rating and the loser loses rating. *)
Theorem processMatch_winner_gains (m : Match) (s : Store)
  (Hij : player1 m <> player2 m)
  (Hi : (player1 m < List.length s)%nat)
  (Hj : (player2 m < List.length s)%nat)
  (HK : 0 < kFactor m) :
  (result m = 1%Z ->
     rating (player_at (processMatch m s) (player1 m))
       > rating (player_at s (player1 m)) /\
     rating (player_at (processMatch m s) (player2 m))
       < rating (player_at s (player2 m))) /\
  (result m = (-1)%Z ->
     rating (player_at (processMatch m s) (player1 m))
       < rating (player_at s (player1 m)) /\
     rating (player_at (processMatch m s) (player2 m))
       > rating (player_at s (player2 m))).
Proof.
  destruct (processMatch_ratings m s Hij Hi Hj) as [H1 H2].
  pose proof (expected_score_open_unit (rating (player_at s (player1 m)))
                (rating (player_at s (player2 m)))) as [E1 F1].
  pose proof (expected_score_open_unit (rating (player_at s (player2 m)))
                (rating (player_at s (player1 m)))) as [E2 F2].
  split; intros Hr; rewrite Hr in H1, H2; simpl in H1, H2;
    rewrite H1, H2; split; nra.
Qed.

(** For two distinct players, multiplying the K-factor by [c] multiplies
    both rating changes by [c] (doubling K doubles the changes). *)
Theorem processMatch_kFactor_scaling (i j : nat) (res : Z) (K c : R)
  (s : Store) (Hij : i <> j)
  (Hi : (i < List.length s)%nat) (Hj : (j < List.length s)%nat) :
  rating (player_at (processMatch (mkMatch i j res (c * K)) s) i)
    - rating (player_at s i)
  = c * (rating (player_at (processMatch (mkMatch i j res K) s) i)
         - rating (player_at s i)) /\
  rating (player_at (processMatch (mkMatch i j res (c * K)) s) j)
    - rating (player_at s j)
  = c * (rating (player_at (processMatch (mkMatch i j res K) s) j)
         - rating (player_at s j)).
Proof.
  destruct (processMatch_ratings (mkMatch i j res (c * K)) s Hij Hi Hj)
    as [H1 H2].
  destruct (processMatch_ratings (mkMatch i j res K) s Hij Hi Hj)
    as [G1 G2].
  cbn [player1 player2 result kFactor] in *.
  rewrite H1, H2, G1, G2. split; ring.
Qed.

(** Between two distinct players of equal rating, a win moves the winner
    up by K/2 and the loser down by K/2, and a draw changes neither. *)
Theorem processMatch_equal_ratings (i j : nat) (K : R) (s : Store)
  (Hij : i <> j)
  (Hi : (i < List.length s)%nat) (Hj : (j < List.length s)%nat)
  (Heq : rating (player_at s i) = rating (player_at s j)) :
  (rating (player_at (processMatch (mkMatch i j 1 K) s) i)
     = rating (player_at s i) + K / 2 /\
   rating (player_at (processMatch (mkMatch i j 1 K) s) j)
     = rating (player_at s j) - K / 2) /\
  (rating (player_at (processMatch (mkMatch i j 0 K) s) i)
     = rating (player_at s i) /\
   rating (player_at (processMatch (mkMatch i j 0 K) s) j)
     = rating (player_at s j)).
Proof.
  destruct (processMatch_ratings (mkMatch i j 1 K) s Hij Hi Hj) as [H1 H2].
  destruct (processMatch_ratings (mkMatch i j 0 K) s Hij Hi Hj) as [G1 G2].
  cbn [player1 player2 result kFactor Z.eqb Pos.eqb] in *.
  rewrite Heq, expected_score_same in H1, H2, G1, G2.
  rewrite H1, H2, G1, G2, Heq. split; split; lra.
Qed.

(** With K > 0, a draw between two distinct players moves the lower-rated
    one up and the higher-rated one down. *)
Theorem processMatch_draw_moves_towards (m : Match) (s : Store)
  (Hij : player1 m <> player2 m)
  (Hi : (player1 m < List.length s)%nat)
  (Hj : (player2 m < List.length s)%nat)
  (HK : 0 < kFactor m) (Hd : result m = 0%Z)
  (Hlt : rating (player_at s (player1 m)) < rating (player_at s (player2 m))) :
  rating (player_at (processMatch m s) (player1 m))
    > rating (player_at s (player1 m)) /\
  rating (player_at (processMatch m s) (player2 m))
    < rating (player_at s (player2 m)).
Proof.
  destruct (processMatch_ratings m s Hij Hi Hj) as [H1 H2].
  rewrite Hd in H1, H2; simpl in H1, H2.
  pose proof (expected_score_lower_below_half _ _ Hlt) as E1.
  pose proof (expected_score_sum (rating (player_at s (player1 m)))
                                 (rating (player_at s (player2 m)))) as Hs.
  rewrite H1, H2. split; nra.
Qed.

(** ** Witnesses of the further properties *)

Definition uneven_players : RankingSystem :=
  [mkPlayer "A" 1100 0 0 0 0; mkPlayer "B" 1200 0 0 0 0].

Lemma unique_names_kept_witness :
  NoDup (getAllPlayerNames
           (run_sys [SAddPlayer "A" 1200; SAddPlayer "B" 1000;
                     SAddPlayer "A" 1500; SRecordMatch "A" "B" 1;
                     SFindMatch "A" 7 0] [])).
Proof.
  apply unique_names_kept; [constructor | reflexivity].
Defined.

Lemma recordMatch_distinct_totals_witness :
  total_rating (recordMatch "A" "B" 1 two_players) = total_rating two_players.
Proof.
  exact (proj1 (recordMatch_distinct_totals "A" "B" 1 two_players
                  ltac:(discriminate))).
Defined.


Lemma processMatch_winner_gains_witness :
  rating (player_at (processMatch (mkMatch 0 1 1 32) uneven_players) 0)
    > rating (player_at uneven_players 0).
Proof.
  exact (proj1 (proj1 (processMatch_winner_gains (mkMatch 0 1 1 32)
                         uneven_players ltac:(discriminate)
                         ltac:(simpl; lia) ltac:(simpl; lia)
                         ltac:(simpl; lra)) eq_refl)).
Defined.

Lemma processMatch_kFactor_scaling_witness :
  rating (player_at (processMatch (mkMatch 0 1 1 (2 * 16)) uneven_players) 0)
    - rating (player_at uneven_players 0)
  = 2 * (rating (player_at (processMatch (mkMatch 0 1 1 16) uneven_players) 0)
         - rating (player_at uneven_players 0)).
Proof.
  exact (proj1 (processMatch_kFactor_scaling 0 1 1 16 2 uneven_players
                  ltac:(discriminate) ltac:(simpl; lia) ltac:(simpl; lia))).
Defined.

Lemma processMatch_equal_ratings_witness :
  rating (player_at (processMatch (mkMatch 0 1 1 32) two_players) 0)
  = rating (player_at two_players 0) + 32 / 2.
Proof.
  exact (proj1 (proj1 (processMatch_equal_ratings 0 1 32 two_players
                         ltac:(discriminate) ltac:(simpl; lia)
                         ltac:(simpl; lia) ltac:(reflexivity)))).
Defined.

Lemma processMatch_draw_moves_towards_witness :
  rating (player_at (processMatch (mkMatch 0 1 0 32) uneven_players) 0)
    > rating (player_at uneven_players 0).
Proof.
  exact (proj1 (processMatch_draw_moves_towards (mkMatch 0 1 0 32)
                  uneven_players ltac:(discriminate) ltac:(simpl; lia)
                  ltac:(simpl; lia) ltac:(simpl; lra) eq_refl
                  ltac:(simpl; lra))).
Defined.
